(** * ADPCM codec interface of BCLRingSDK ([adpcm_filter.h])

    The header carries one macro, [CLAMP], and the prototypes of the codec's
    entry points.  The macro is embedded as it is written.  The bodies of the
    entry points ship only as a binary, so they are modelled from the
    interface specification, parametrically in every constant the
    specification leaves open (step table, adaptation table, seeds,
    quantiser, nibble order, filter kernel, allocator). *)

From Stdlib Require Import ZArith List Bool Lia.
Import ListNotations.
Local Open Scope Z_scope.

(** ** The macro *)

(** [#define CLAMP(x, low, high)
      (((x) > (high)) ? (high) : (((x) < (low)) ? (low) : (x)))]
    on integer operands. *)
Definition CLAMP (x low high : Z) : Z :=
  if x >? high then high else if x <? low then low else x.

(** ** The declarations *)

Inductive ctype : Type :=
| Tvoid
| Tint
| Tlong
| Tint16
| Tuint8
| Tconst (t : ctype)
| Tptr (t : ctype).

Record prototype : Type := {
  proto_ret : ctype;
  proto_params : list ctype
}.

(** [long yma_encode(int16_t *buffer, uint8_t *outbuffer, long len);] *)
Definition decl_yma_encode : prototype :=
  {| proto_ret := Tlong;
     proto_params := [Tptr Tint16; Tptr Tuint8; Tlong] |}.

(** [void yma_decode(uint8_t *buffer, uint8_t *outbuffer, long len);] *)
Definition decl_yma_decode : prototype :=
  {| proto_ret := Tvoid;
     proto_params := [Tptr Tuint8; Tptr Tuint8; Tlong] |}.

(** [void bandpass_filter(int16_t *input, int16_t *output, int length);] *)
Definition decl_bandpass_filter : prototype :=
  {| proto_ret := Tvoid;
     proto_params := [Tptr Tint16; Tptr Tint16; Tint] |}.

(** [int adpcm_to_pcm_for_swift(const uint8_t *adpcm_data, int adpcm_length,
                                uint8_t **pcm_data, int *pcm_length);] *)
Definition decl_adpcm_to_pcm_for_swift : prototype :=
  {| proto_ret := Tint;
     proto_params :=
       [Tptr (Tconst Tuint8); Tint; Tptr (Tptr Tuint8); Tptr Tint] |}.

(** [void free_pcm_data(uint8_t *pcm_data);] *)
Definition decl_free_pcm_data : prototype :=
  {| proto_ret := Tvoid; proto_params := [Tptr Tuint8] |}.

(** A C function can report a status through its return value only when
    that value exists. *)
Definition returns_value (p : prototype) : bool :=
  match proto_ret p with
  | Tvoid => false
  | _ => true
  end.

(** ** Fixed-width integers *)

Definition int16_min : Z := -32768.
Definition int16_max : Z := 32767.

Definition in_int16 (x : Z) : Prop := int16_min <= x <= int16_max.

Definition to_uint8 (x : Z) : Z := x mod 256.

(** Two's-complement reading of a 16-bit pattern. *)
Definition to_int16 (x : Z) : Z :=
  let u := x mod 65536 in
  if u <? 32768 then u else u - 65536.

(** ** Codec state and constants *)

(** The two cells [yma_step] and [yma_encode_step] receive by pointer:
    [int16_t *history] and [uint8_t *step_hist]. *)
Record codec_state : Type := {
  history : Z;
  step_hist : Z
}.

(** Modelled from the spec: the constants of the codec, absent from the
    header.  A monotonic step-size table, the adaptation table indexed by
    the 3-bit magnitude code, the fixed predictor and step-index seeds, the
    quantiser of a difference magnitude against a step size and its
    dequantiser, the nibble order inside a byte, and the code that pads an
    odd-length input. *)
Class CodecTables : Type := {
  step_table : list Z;
  adapt_table : list Z;
  history_seed : Z;
  step_seed : Z;
  quantize : Z -> Z -> Z;
  dequantize : Z -> Z -> Z;
  high_nibble_first : bool;
  pad_code : Z
}.

Section Codec.

Context {T : CodecTables}.

(** Modelled from the spec: the state both sides start from on every call,
    the fixed predictor seed and the fixed step-index seed. *)
Definition seed_state : codec_state :=
  {| history := history_seed; step_hist := step_seed |}.

(** Modelled from the spec: the current step size, the entry of the step
    table at the step index. *)
Definition step_size_at (idx : Z) : Z :=
  nth (Z.to_nat idx) step_table 0.

(** Modelled from the spec: the body of
    [static inline int16_t yma_step(uint8_t step, int16_t *history,
    uint8_t *step_hist)].  Dequantise the magnitude bits of the code with
    the current step size, add or subtract by the sign bit, clamp the
    predictor into the 16-bit signed range, move the step index by the
    adaptation table and clamp it to the table's index range. *)
Definition yma_step (step : Z) (st : codec_state) : Z * codec_state :=
  let step_size := step_size_at (step_hist st) in
  let magnitude := Z.land step 7 in
  let delta := dequantize magnitude step_size in
  let newval :=
    if Z.testbit step 3 then history st - delta else history st + delta in
  let h := CLAMP newval int16_min int16_max in
  let adjusted := step_hist st + nth (Z.to_nat magnitude) adapt_table 0 in
  let idx := CLAMP adjusted 0 (Z.of_nat (length step_table) - 1) in
  (h, {| history := h; step_hist := to_uint8 idx |}).

(** Modelled from the spec: the body of
    [static inline uint8_t yma_encode_step(int16_t input, int16_t *history,
    uint8_t *step_hist)].  Quantise the magnitude of the difference to the
    predictor into three bits, set the sign bit for a negative difference,
    and replay the code through [yma_step] as the decoder will. *)
Definition yma_encode_step (input : Z) (st : codec_state)
  : Z * codec_state :=
  let step_size := step_size_at (step_hist st) in
  let delta := input - history st in
  let magnitude := Z.land (quantize (Z.abs delta) step_size) 7 in
  let adpcm_sample := if delta <? 0 then Z.lor magnitude 8 else magnitude in
  (adpcm_sample, snd (yma_step adpcm_sample st)).

(** Modelled from the spec: two consecutive 4-bit codes share one byte, in
    one fixed order. *)
Definition pack_nibbles (c1 c2 : Z) : Z :=
  if high_nibble_first
  then Z.lor (Z.shiftl (Z.land c1 15) 4) (Z.land c2 15)
  else Z.lor (Z.shiftl (Z.land c2 15) 4) (Z.land c1 15).

(** Modelled from the spec: the decoder takes the two codes out of a byte
    in the order the encoder put them in. *)
Definition unpack_nibbles (b : Z) : Z * Z :=
  let hi := Z.land (Z.shiftr b 4) 15 in
  let lo := Z.land b 15 in
  if high_nibble_first then (hi, lo) else (lo, hi).

(** Modelled from the spec: the encoder's per-sample recurrence, the state
    threaded through the whole buffer; the codes and the states after each
    sample. *)
Fixpoint encode_run (st : codec_state) (pcm : list Z)
  : list (Z * codec_state) :=
  match pcm with
  | [] => []
  | s :: rest =>
      let r := yma_encode_step s st in
      r :: encode_run (snd r) rest
  end.

(** The codes of a run. *)
Definition encode_codes (st : codec_state) (pcm : list Z) : list Z :=
  map fst (encode_run st pcm).

(** The states of a run, one after each sample. *)
Definition encode_states (st : codec_state) (pcm : list Z)
  : list codec_state :=
  map snd (encode_run st pcm).

(** Modelled from the spec: an odd-length input still has its last sample
    encoded; the missing code of the pair is [pad_code]. *)
Fixpoint pack_codes (cs : list Z) : list Z :=
  match cs with
  | [] => []
  | [c] => [pack_nibbles c pad_code]
  | c1 :: c2 :: rest => pack_nibbles c1 c2 :: pack_codes rest
  end.

(** Modelled from the spec: the encoder on a sample sequence, from the
    seeds. *)
Definition encode_samples (pcm : list Z) : list Z :=
  pack_codes (encode_codes seed_state pcm).

(** Modelled from the spec: every byte carries two codes. *)
Fixpoint unpack_codes (bytes : list Z) : list Z :=
  match bytes with
  | [] => []
  | b :: rest =>
      fst (unpack_nibbles b) :: snd (unpack_nibbles b) :: unpack_codes rest
  end.

(** Modelled from the spec: the decoder's per-code recurrence, the mirror
    of the encoder's; the samples and the states after each code. *)
Fixpoint decode_run (st : codec_state) (codes : list Z)
  : list (Z * codec_state) :=
  match codes with
  | [] => []
  | c :: rest =>
      let r := yma_step c st in
      r :: decode_run (snd r) rest
  end.

(** The states of a run, one after each code. *)
Definition decode_states (st : codec_state) (codes : list Z)
  : list codec_state :=
  map snd (decode_run st codes).

(** Modelled from the spec: the decoder on packed bytes for a sample count
    [n], from the same seeds as the encoder. *)
Definition decode_samples (bytes : list Z) (n : nat) : list Z :=
  firstn n (map fst (decode_run seed_state (unpack_codes bytes))).

End Codec.

(** ** Memory *)

(** A byte-addressed store.  Pointers are addresses, [0] is the null
    pointer, a cell is read modulo 256. *)
Definition mem : Type := Z -> Z.

Definition load8 (m : mem) (p : Z) : Z := to_uint8 (m p).

Definition store8 (m : mem) (p v : Z) : mem :=
  fun a => if a =? p then to_uint8 v else m a.

Definition load_bytes (m : mem) (p : Z) (n : nat) : list Z :=
  map (fun i => load8 m (p + Z.of_nat i)) (seq 0 n).

Fixpoint store_bytes (m : mem) (p : Z) (bytes : list Z) : mem :=
  match bytes with
  | [] => m
  | b :: rest => store_bytes (store8 m p b) (p + 1) rest
  end.

(** An [int16_t] occupies two cells, low byte first (arm64 and x86_64 are
    little-endian). *)
Definition int16_bytes (v : Z) : list Z :=
  [to_uint8 v; to_uint8 (v / 256)].

Definition load16 (m : mem) (p : Z) : Z :=
  to_int16 (load8 m p + 256 * load8 m (p + 1)).

Definition load_samples (m : mem) (p : Z) (n : nat) : list Z :=
  map (fun i => load16 m (p + 2 * Z.of_nat i)) (seq 0 n).

Definition store_samples (m : mem) (p : Z) (samples : list Z) : mem :=
  store_bytes m p (flat_map int16_bytes samples).

(** The cells [p, p + n). *)
Definition in_region (p n a : Z) : Prop := p <= a < p + n.

Definition disjoint (p n q k : Z) : Prop :=
  forall a, in_region p n a -> ~ in_region q k a.

(** ** Wider cells and the allocator *)

(** A value over [n] cells, low byte first. *)
Fixpoint le_bytes (n : nat) (v : Z) : list Z :=
  match n with
  | O => []
  | S k => to_uint8 v :: le_bytes k (v / 256)
  end.


Definition store_le (m : mem) (p : Z) (n : nat) (v : Z) : mem :=
  store_bytes m p (le_bytes n v).


(** Two's-complement reading of a 32-bit pattern: C's [int] on arm64 and
    x86_64. *)
Definition to_int32 (x : Z) : Z :=
  let u := x mod 4294967296 in
  if u <? 2147483648 then u else u - 4294967296.

(** A pointer is a 64-bit value. *)
Definition to_uint64 (x : Z) : Z := x mod 18446744073709551616.



(** Modelled from the spec: the allocator the wrapper obtains its output
    buffer from, a parameter (the header names none).  As C's [malloc],
    it answers a pointer for a size in bytes, the null pointer when it
    fails, and leaves a new state behind. *)
Class Allocator : Type := {
  heap : Type;
  malloc : heap -> Z -> Z * heap
}.

(** ** Entry points *)

Definition store16 (m : mem) (p v : Z) : mem :=
  store_bytes m p (int16_bytes v).

Section EntryPoints.

Context {T : CodecTables}.

(** Modelled from the spec: the encoder's loop over the buffer.  Samples
    are read from [src] one after the other; each pair of codes is written
    to [dst] as soon as it is complete, a last single code is written with
    the padding code.  The loop hands back the advanced output pointer. *)
Fixpoint encode_loop (n : nat) (st : codec_state) (m : mem) (src dst : Z)
  : Z * mem :=
  match n with
  | O => (dst, m)
  | S O =>
      let r := yma_encode_step (load16 m src) st in
      (dst + 1, store8 m dst (pack_nibbles (fst r) pad_code))
  | S (S n') =>
      let r1 := yma_encode_step (load16 m src) st in
      let r2 := yma_encode_step (load16 m (src + 2)) (snd r1) in
      encode_loop n' (snd r2)
        (store8 m dst (pack_nibbles (fst r1) (fst r2))) (src + 4) (dst + 1)
  end.

(** Modelled from the spec: the body of [long yma_encode(int16_t *buffer,
    uint8_t *outbuffer, long len)].  A length that is zero or negative is
    rejected with a negative return; otherwise the [len] samples at
    [buffer] are encoded from the seeds, the packed bytes are written at
    [outbuffer], and the number of bytes written is returned. *)
Definition yma_encode (m : mem) (buffer outbuffer len : Z) : Z * mem :=
  if len <=? 0 then (-1, m)
  else
    let r := encode_loop (Z.to_nat len) seed_state m buffer outbuffer in
    (fst r - outbuffer, snd r).

(** Modelled from the spec: the decoder's loop.  One byte is read from
    [src] for each pair of samples, and each reconstructed sample is
    written to [dst] as a 16-bit value as soon as it is computed. *)
Fixpoint decode_loop (n : nat) (st : codec_state) (m : mem) (src dst : Z)
  : mem :=
  match n with
  | O => m
  | S O =>
      let c := unpack_nibbles (load8 m src) in
      let r := yma_step (fst c) st in
      store16 m dst (fst r)
  | S (S n') =>
      let c := unpack_nibbles (load8 m src) in
      let r1 := yma_step (fst c) st in
      let m1 := store16 m dst (fst r1) in
      let r2 := yma_step (snd c) (snd r1) in
      let m2 := store16 m1 (dst + 2) (fst r2) in
      decode_loop n' (snd r2) m2 (src + 1) (dst + 4)
  end.

(** Modelled from the spec: the body of [void yma_decode(uint8_t *buffer,
    uint8_t *outbuffer, long len)].  [len] is the sample count; the packed
    codes are read at [buffer], the samples are written at [outbuffer],
    from the same seeds as the encoder, and nothing is returned. *)
Definition yma_decode (m : mem) (buffer outbuffer len : Z) : unit * mem :=
  (tt, decode_loop (Z.to_nat len) seed_state m buffer outbuffer).

Context {A : Allocator}.

(** The result of the boundary wrapper: the [int] it returns, the state
    of the allocator and the memory it leaves. *)
Record wrapper_result : Type := {
  wr_status : Z;
  wr_heap : heap;
  wr_mem : mem
}.

(** Modelled from the spec: the body of [int adpcm_to_pcm_for_swift(const
    uint8_t *adpcm_data, int adpcm_length, uint8_t **pcm_data, int
    *pcm_length)].  Null input or a non-positive length fail with -1
    before anything is allocated; the decoded length is two samples per
    input byte, computed as an [int]; a buffer of that many 16-bit samples
    is requested, a null answer fails with -1; otherwise the decoder fills
    the buffer, the buffer is stored through [pcm_data] and the length
    through [pcm_length], and 0 is returned.  The buffer is not
    released. *)
Definition adpcm_to_pcm_for_swift (h : heap) (m : mem)
    (adpcm_data adpcm_length pcm_data pcm_length : Z) : wrapper_result :=
  if (adpcm_data =? 0) || (adpcm_length <=? 0)
  then {| wr_status := -1; wr_heap := h; wr_mem := m |}
  else
    let samples := to_int32 (2 * adpcm_length) in
    let answer := malloc h (2 * samples) in
    let p := to_uint64 (fst answer) in
    if p =? 0
    then {| wr_status := -1; wr_heap := snd answer; wr_mem := m |}
    else
      let m1 := snd (yma_decode m adpcm_data p samples) in
      let m2 := store_le m1 pcm_data 8 p in
      let m3 := store_le m2 pcm_length 4 samples in
      {| wr_status := 0; wr_heap := snd answer; wr_mem := m3 |}.

End EntryPoints.

Section Filter.

(** Modelled from the spec: the filter's kernel, absent from the header.
    One output sample is computed from the inputs seen so far in this
    call; coefficients and arithmetic are left open. *)
Variable filter_tap : list Z -> Z.


(** Modelled from the spec: the filter's loop, sample by sample.  [seen]
    is the history of this call's inputs. *)
Fixpoint filter_loop (n : nat) (seen : list Z) (m : mem) (src dst : Z)
  : mem :=
  match n with
  | O => m
  | S n' =>
      let seen' := seen ++ [load16 m src] in
      filter_loop n' seen' (store16 m dst (filter_tap seen'))
        (src + 2) (dst + 2)
  end.

(** Modelled from the spec: the body of [void bandpass_filter(int16_t
    *input, int16_t *output, int length)].  The history starts empty on
    every call; N input samples give N output samples. *)
Definition bandpass_filter (m : mem) (input output length : Z)
  : unit * mem :=
  (tt, filter_loop (Z.to_nat length) [] m input output).

End Filter.

(** ** Quantisation error *)

Section Residual.

Context {T : CodecTables}.

(** What the quantiser loses on one sample: the distance between the
    magnitude of the difference to the predictor and the magnitude the
    3-bit code stands for at the current step size. *)
Definition quantizer_residual (st : codec_state) (input : Z) : Z :=
  let step_size := step_size_at (step_hist st) in
  let magnitude := Z.abs (input - history st) in
  Z.abs (magnitude
         - dequantize (Z.land (quantize magnitude step_size) 7) step_size).

(** The residuals along an encoding run, each at the state its sample
    meets. *)
Fixpoint encode_residuals (st : codec_state) (pcm : list Z) : list Z :=
  match pcm with
  | [] => []
  | s :: rest =>
      quantizer_residual st s
      :: encode_residuals (snd (yma_encode_step s st)) rest
  end.

End Residual.

(** ** A concrete set of constants *)

(** Successive approximation of the magnitude against the step size,
    saturating at 7. *)
Definition sample_quantize (magnitude step_size : Z) : Z :=
  if step_size <=? 0 then 0
  else Z.min 7 (magnitude * 4 / step_size).

Definition sample_dequantize (code step_size : Z) : Z :=
  (2 * code + 1) * step_size / 8.

Definition sample_tables : CodecTables :=
  {| step_table :=
       [16; 17; 19; 21; 23; 25; 28; 31; 34; 37;
        41; 45; 50; 55; 60; 66; 73; 80; 88; 97;
        107; 118; 130; 143; 157; 173; 190; 209; 230; 253;
        279; 307; 337; 371; 408; 449; 494; 544; 598; 658;
        724; 796; 876; 963; 1060; 1166; 1282; 1411; 1552];
     adapt_table := [-1; -1; -1; -1; 2; 5; 7; 9];
     history_seed := 0;
     step_seed := 0;
     quantize := sample_quantize;
     dequantize := sample_dequantize;
     high_nibble_first := true;
     pad_code := 0 |}.

Definition zero_mem : mem := fun _ => 0.


(** An allocator that hands out consecutive blocks; its state is the next
    free address. *)
Definition bump_allocator : Allocator :=
  {| heap := Z; malloc := fun brk size => (brk, brk + size) |}.

(** ** Derived quantities *)

(** The sixteen 4-bit codes. *)
Definition nibbles : list Z := map Z.of_nat (seq 0 16).

(** ceil(n / 2) on integers. *)
Definition half_up (n : Z) : Z := (n + 1) / 2.

(** The step index points into the step table. *)
Definition step_index_ok {T : CodecTables} (st : codec_state) : Prop :=
  0 <= step_hist st < Z.of_nat (length step_table).

(** [lia] is kept away from the halving itself. *)
Ltac forget_div2 :=
  repeat match goal with
         | H : context [Nat.div2 ?x] |- _ =>
             let k := fresh "k" in set (k := Nat.div2 x) in *; clearbody k
         | |- context [Nat.div2 ?x] =>
             let k := fresh "k" in set (k := Nat.div2 x) in *; clearbody k
         end.

Ltac lia_div2 := forget_div2; lia.

(** * Properties *)

(** ** CLAMP *)

Lemma CLAMP_in_range (x low high : Z) :
  low <= high -> low <= CLAMP x low high <= high.
Proof.
  intros Hle. unfold CLAMP.
  destruct (x >? high) eqn:Hhi; [lia |].
  destruct (x <? low) eqn:Hlo; lia.
Qed.

Lemma CLAMP_fixes_range (x low high : Z) :
  low <= x <= high -> CLAMP x low high = x.
Proof.
  intros Hx. unfold CLAMP.
  destruct (x >? high) eqn:Hhi; [lia |].
  destruct (x <? low) eqn:Hlo; lia.
Qed.

(** C4, at inverted bounds: 5 is below the lower bound 10, yet the macro
    answers the upper bound 0, because it tests the upper bound first. *)
Lemma CLAMP_below_low_not_low :
  ~ (forall x low high : Z,
        (x < low -> CLAMP x low high = low) /\
        (x > high -> CLAMP x low high = high) /\
        (~ x < low -> ~ x > high -> CLAMP x low high = x)).
Proof.
  intros H. destruct (H 5 10 0) as [Hlow _].
  specialize (Hlow ltac:(lia)). vm_compute in Hlow. discriminate.
Qed.

(** C4, amended: CLAMP returns [high] when [x] is above [high]; otherwise
    [low] when [x] is below [low]; otherwise [x] unchanged.  With
    [low <= high] the three cases are the ones of the saturation contract:
    below [low] gives [low], above [high] gives [high], else [x]. *)
Theorem CLAMP_cases (x low high : Z) :
  (x > high -> CLAMP x low high = high) /\
  (x <= high -> x < low -> CLAMP x low high = low) /\
  (x <= high -> low <= x -> CLAMP x low high = x) /\
  (low <= high -> x < low -> CLAMP x low high = low).
Proof.
  unfold CLAMP.
  destruct (x >? high) eqn:Hhi; destruct (x <? low) eqn:Hlo;
    repeat split; intros; lia.
Qed.

Lemma CLAMP_cases_witness :
  CLAMP 40000 (-32768) 32767 = 32767 /\
  CLAMP (-40000) (-32768) 32767 = -32768 /\
  CLAMP 12 (-32768) 32767 = 12.
Proof.
  split; [| split].
  - apply (proj1 (CLAMP_cases 40000 (-32768) 32767)); lia.
  - apply (proj1 (proj2 (CLAMP_cases (-40000) (-32768) 32767))); lia.
  - apply (proj1 (proj2 (proj2 (CLAMP_cases 12 (-32768) 32767)))); lia.
Defined.

(** C10: for bounds with [low <= high] the result of CLAMP lies in
    [[low, high]] and clamping it again changes nothing; for [low > high]
    the upper-bound test wins, so any [x > high] gives [high] although
    [high < low]. *)
Theorem CLAMP_interval_idempotent_precedence (x low high : Z) :
  (low <= high ->
     low <= CLAMP x low high <= high /\
     CLAMP (CLAMP x low high) low high = CLAMP x low high) /\
  (low > high -> x > high -> CLAMP x low high = high /\ high < low).
Proof.
  split.
  - intros Hle. split.
    + now apply CLAMP_in_range.
    + apply CLAMP_fixes_range. now apply CLAMP_in_range.
  - intros Hgt Hx. split; [| lia].
    unfold CLAMP. destruct (x >? high) eqn:Hhi; lia.
Qed.

Lemma CLAMP_interval_idempotent_precedence_witness :
  (0 <= CLAMP 99 0 48 <= 48 /\ CLAMP (CLAMP 99 0 48) 0 48 = CLAMP 99 0 48) /\
  (CLAMP 5 10 0 = 0 /\ 0 < 10).
Proof.
  split.
  - apply (proj1 (CLAMP_interval_idempotent_precedence 99 0 48)); lia.
  - apply (proj2 (CLAMP_interval_idempotent_precedence 5 10 0)); lia.
Defined.

(** ** Nibbles *)

Lemma in_nibbles (c : Z) : 0 <= c < 16 -> In c nibbles.
Proof.
  intros Hc. unfold nibbles.
  rewrite <- (Z2Nat.id c) by lia.
  apply in_map, in_seq. lia.
Qed.

Lemma land_7_range (q : Z) : 0 <= Z.land q 7 < 8.
Proof.
  change 7 with (Z.ones 3). rewrite Z.land_ones by lia.
  apply Z.mod_pos_bound. reflexivity.
Qed.

Lemma land_15_range (q : Z) : 0 <= Z.land q 15 < 16.
Proof.
  change 15 with (Z.ones 4). rewrite Z.land_ones by lia.
  apply Z.mod_pos_bound. reflexivity.
Qed.

Lemma land_15_small (c : Z) : 0 <= c < 16 -> Z.land c 15 = c.
Proof.
  intros Hc. change 15 with (Z.ones 4). rewrite Z.land_ones by lia.
  apply Z.mod_small. exact Hc.
Qed.

Lemma lor_8_range (c : Z) : 0 <= c < 8 -> 0 <= Z.lor c 8 < 16.
Proof.
  intros Hc.
  assert (Hall : forallb (fun c => (0 <=? Z.lor c 8) && (Z.lor c 8 <? 16))
                   nibbles = true) by reflexivity.
  rewrite forallb_forall in Hall.
  specialize (Hall c (in_nibbles c ltac:(lia))).
  apply andb_prop in Hall. lia.
Qed.

Lemma unpack_raw (a b : Z) :
  0 <= a < 16 -> 0 <= b < 16 ->
  Z.land (Z.shiftr (Z.lor (Z.shiftl a 4) b) 4) 15 = a /\
  Z.land (Z.lor (Z.shiftl a 4) b) 15 = b /\
  0 <= Z.lor (Z.shiftl a 4) b < 256.
Proof.
  intros Ha Hb.
  assert (Hall :
    forallb (fun a => forallb (fun b =>
      (Z.land (Z.shiftr (Z.lor (Z.shiftl a 4) b) 4) 15 =? a) &&
      (Z.land (Z.lor (Z.shiftl a 4) b) 15 =? b) &&
      (0 <=? Z.lor (Z.shiftl a 4) b) &&
      (Z.lor (Z.shiftl a 4) b <? 256)) nibbles) nibbles = true)
    by (vm_compute; reflexivity).
  rewrite forallb_forall in Hall.
  specialize (Hall a (in_nibbles a Ha)).
  rewrite forallb_forall in Hall.
  specialize (Hall b (in_nibbles b Hb)).
  repeat (apply andb_prop in Hall; destruct Hall as [Hall ?]).
  lia.
Qed.

Section CodecFacts.

Context {T : CodecTables}.

Lemma unpack_pack (c1 c2 : Z) :
  unpack_nibbles (pack_nibbles c1 c2) = (Z.land c1 15, Z.land c2 15).
Proof.
  unfold unpack_nibbles, pack_nibbles.
  pose proof (land_15_range c1) as H1.
  pose proof (land_15_range c2) as H2.
  destruct high_nibble_first.
  - destruct (unpack_raw _ _ H1 H2) as (Hhi & Hlo & _). now rewrite Hhi, Hlo.
  - destruct (unpack_raw _ _ H2 H1) as (Hhi & Hlo & _). now rewrite Hhi, Hlo.
Qed.

Lemma pack_nibbles_byte (c1 c2 : Z) : 0 <= pack_nibbles c1 c2 < 256.
Proof.
  unfold pack_nibbles.
  pose proof (land_15_range c1) as H1.
  pose proof (land_15_range c2) as H2.
  destruct high_nibble_first.
  - now destruct (unpack_raw _ _ H1 H2) as (_ & _ & Hb).
  - now destruct (unpack_raw _ _ H2 H1) as (_ & _ & Hb).
Qed.

(** ** One step *)

Lemma yma_step_fst (c : Z) (st : codec_state) :
  fst (yma_step c st) = history (snd (yma_step c st)).
Proof. reflexivity. Qed.

Lemma yma_step_saturates (c : Z) (st : codec_state) :
  in_int16 (history (snd (yma_step c st))).
Proof.
  unfold yma_step, in_int16. cbn [snd history].
  apply CLAMP_in_range. unfold int16_min, int16_max. lia.
Qed.

Lemma yma_encode_step_saturates (s : Z) (st : codec_state) :
  in_int16 (history (snd (yma_encode_step s st))).
Proof. unfold yma_encode_step. cbn [snd]. apply yma_step_saturates. Qed.

Lemma yma_encode_step_code (s : Z) (st : codec_state) :
  0 <= fst (yma_encode_step s st) < 16.
Proof.
  unfold yma_encode_step. cbn [fst].
  pose proof (land_7_range
                (quantize (Z.abs (s - history st))
                   (step_size_at (step_hist st)))) as Hm.
  destruct (s - history st <? 0).
  - now apply lor_8_range.
  - lia.
Qed.

(** The encoder updates its state with the decoder's own step. *)
Lemma yma_encode_step_replays (s : Z) (st : codec_state) :
  snd (yma_encode_step s st) = snd (yma_step (fst (yma_encode_step s st)) st).
Proof. reflexivity. Qed.

(** ** Runs *)

Lemma encode_run_length (st : codec_state) (pcm : list Z) :
  length (encode_run st pcm) = length pcm.
Proof.
  revert st. induction pcm as [| s rest IH]; intros st; cbn.
  - reflexivity.
  - now rewrite IH.
Qed.

Lemma decode_run_length (st : codec_state) (codes : list Z) :
  length (decode_run st codes) = length codes.
Proof.
  revert st. induction codes as [| c rest IH]; intros st; cbn.
  - reflexivity.
  - now rewrite IH.
Qed.

Lemma encode_codes_nibbles (st : codec_state) (pcm : list Z) :
  Forall (fun c => 0 <= c < 16) (encode_codes st pcm).
Proof.
  unfold encode_codes. revert st.
  induction pcm as [| s rest IH]; intros st; cbn.
  - constructor.
  - constructor; [apply yma_encode_step_code | apply IH].
Qed.

Lemma encode_states_saturate (st : codec_state) (pcm : list Z) :
  Forall (fun s => in_int16 (history s)) (encode_states st pcm).
Proof.
  unfold encode_states. revert st.
  induction pcm as [| s rest IH]; intros st; cbn.
  - constructor.
  - constructor; [apply yma_encode_step_saturates | apply IH].
Qed.

Lemma decode_states_saturate (st : codec_state) (codes : list Z) :
  Forall (fun s => in_int16 (history s)) (decode_states st codes).
Proof.
  unfold decode_states. revert st.
  induction codes as [| c rest IH]; intros st; cbn.
  - constructor.
  - constructor; [apply yma_step_saturates | apply IH].
Qed.

(** The decoder, fed the encoder's codes from the encoder's state, walks
    through the encoder's states. *)
Lemma decode_tracks_encode (st : codec_state) (pcm : list Z) :
  decode_states st (encode_codes st pcm) = encode_states st pcm.
Proof.
  unfold decode_states, encode_codes, encode_states. revert st.
  induction pcm as [| s rest IH]; intros st;
    cbn [encode_run decode_run map].
  - reflexivity.
  - f_equal. rewrite <- (yma_encode_step_replays s st). apply IH.
Qed.

Lemma decode_run_samples (st : codec_state) (codes : list Z) :
  map fst (decode_run st codes) = map history (decode_states st codes).
Proof.
  unfold decode_states. revert st.
  induction codes as [| c rest IH]; intros st; cbn.
  - reflexivity.
  - f_equal. apply IH.
Qed.

End CodecFacts.

(** ** Packing *)

Lemma list_pair_ind (A : Type) (P : list A -> Prop) :
  P [] ->
  (forall a, P [a]) ->
  (forall a b rest, P rest -> P (a :: b :: rest)) ->
  forall l, P l.
Proof.
  intros Hnil Hone Hstep.
  assert (Hboth : forall l, P l /\ forall a, P (a :: l)).
  { induction l as [| b rest [IH1 IH2]].
    - split; [exact Hnil | exact Hone].
    - split; [apply IH2 |]. intros a. now apply Hstep. }
  intros l. apply Hboth.
Qed.

Section Packing.

Context {T : CodecTables}.





End Packing.

(** ** Saturation *)

(** C5: whatever the sample or code fed in and whatever the state before,
    the predictor left by one update of [yma_encode_step] or of
    [yma_step] is in the 16-bit signed range; so along any encoding or
    decoding run every predictor value after a per-sample update is in
    that range, and so is every sample the decoder emits. *)
Theorem predictor_stays_in_int16 {T : CodecTables}
    (st : codec_state) (input step : Z) (pcm codes : list Z) :
  in_int16 (history (snd (yma_encode_step input st))) /\
  in_int16 (history (snd (yma_step step st))) /\
  in_int16 (fst (yma_step step st)) /\
  Forall (fun s => in_int16 (history s)) (encode_states st pcm) /\
  Forall (fun s => in_int16 (history s)) (decode_states st codes) /\
  Forall in_int16 (map fst (decode_run st codes)).
Proof.
  split; [apply yma_encode_step_saturates |].
  split; [apply yma_step_saturates |].
  split; [rewrite yma_step_fst; apply yma_step_saturates |].
  split; [apply encode_states_saturate |].
  split; [apply decode_states_saturate |].
  rewrite decode_run_samples. apply Forall_map, decode_states_saturate.
Qed.

(** Samples far outside what the step sizes can follow drive the
    predictor to the rails and no further. *)
Example predictor_at_the_rails :
  map history
    (@encode_states sample_tables (@seed_state sample_tables)
       (repeat 1000000 20))
  = [30; 99; 264; 655; 1581; 3767; 6677; 9587; 12497; 15407; 18317; 21227;
     24137; 27047; 29957; 32767; 32767; 32767; 32767; 32767].
Proof. vm_compute. reflexivity. Qed.

(** The scenario of the specification: eight samples give four bytes, and
    the four bytes give back eight samples. *)
Example scenario_eight_samples :
  let pcm := [0; 100; 200; 100; 0; -100; -200; -100] in
  @encode_samples sample_tables pcm = [7; 120; 204; 180] /\
  @decode_samples sample_tables [7; 120; 204; 180] 8
  = [2; 32; 101; 90; 0; -109; -212; -92].
Proof. split; reflexivity. Qed.

(** ** Memory *)

Lemma to_uint8_range (v : Z) : 0 <= to_uint8 v < 256.
Proof. unfold to_uint8. apply Z.mod_pos_bound. reflexivity. Qed.

Lemma to_uint8_small (v : Z) : 0 <= v < 256 -> to_uint8 v = v.
Proof. unfold to_uint8. apply Z.mod_small. Qed.

Lemma to_uint8_idem (v : Z) : to_uint8 (to_uint8 v) = to_uint8 v.
Proof. apply to_uint8_small, to_uint8_range. Qed.

Lemma to_int16_bytes (v : Z) :
  in_int16 v -> to_int16 (to_uint8 v + 256 * to_uint8 (v / 256)) = v.
Proof.
  unfold in_int16, int16_min, int16_max, to_int16, to_uint8. intros Hv.
  rewrite <- (Z.rem_mul_r v 256 256) by lia.
  change (256 * 256) with 65536.
  rewrite Z.mod_mod by lia.
  destruct (Z_lt_le_dec v 0) as [Hneg | Hpos].
  - assert (Hm : v mod 65536 = v + 65536).
    { symmetry. apply (Z.mod_unique v 65536 (-1)); lia. }
    rewrite Hm. destruct (v + 65536 <? 32768) eqn:Hc; lia.
  - rewrite Z.mod_small by lia.
    destruct (v <? 32768) eqn:Hc; lia.
Qed.

Lemma to_int16_range (x : Z) : in_int16 (to_int16 x).
Proof.
  unfold in_int16, int16_min, int16_max, to_int16.
  pose proof (Z.mod_pos_bound x 65536 ltac:(lia)) as Hb.
  destruct (x mod 65536 <? 32768) eqn:Hc; lia.
Qed.

Lemma store8_same (m : mem) (p v : Z) : store8 m p v p = to_uint8 v.
Proof. unfold store8. now rewrite Z.eqb_refl. Qed.

Lemma store8_other (m : mem) (p v a : Z) : a <> p -> store8 m p v a = m a.
Proof.
  intros Hne. unfold store8.
  destruct (a =? p) eqn:Heq; [lia | reflexivity].
Qed.

Lemma store_bytes_outside (bytes : list Z) (m : mem) (p a : Z) :
  ~ in_region p (Z.of_nat (length bytes)) a ->
  store_bytes m p bytes a = m a.
Proof.
  unfold in_region. revert m p.
  induction bytes as [| b rest IH]; intros m p Hout; cbn [store_bytes].
  - reflexivity.
  - cbn [length] in Hout. rewrite IH by lia.
    apply store8_other. lia.
Qed.

Lemma load_bytes_S (m : mem) (p : Z) (n : nat) :
  load_bytes m p (S n) = load8 m p :: load_bytes m (p + 1) n.
Proof.
  unfold load_bytes. cbn [seq map].
  rewrite Z.add_0_r. f_equal.
  rewrite <- seq_shift, map_map.
  apply map_ext. intros i. f_equal. lia.
Qed.

Lemma load_bytes_length (m : mem) (p : Z) (n : nat) :
  length (load_bytes m p n) = n.
Proof. unfold load_bytes. now rewrite length_map, length_seq. Qed.

Lemma load_bytes_ext (m1 m2 : mem) (p : Z) (n : nat) :
  (forall a, in_region p (Z.of_nat n) a -> m1 a = m2 a) ->
  load_bytes m1 p n = load_bytes m2 p n.
Proof.
  intros Hsame. unfold load_bytes. apply map_ext_in.
  intros i Hi. apply in_seq in Hi. unfold load8.
  rewrite Hsame; [reflexivity |]. unfold in_region. lia.
Qed.



Lemma load_samples_length (m : mem) (p : Z) (n : nat) :
  length (load_samples m p n) = n.
Proof. unfold load_samples. now rewrite length_map, length_seq. Qed.

Lemma load_samples_S (m : mem) (p : Z) (n : nat) :
  load_samples m p (S n) = load16 m p :: load_samples m (p + 2) n.
Proof.
  unfold load_samples. cbn [seq map].
  rewrite Z.add_0_r. f_equal.
  rewrite <- seq_shift, map_map.
  apply map_ext. intros i. f_equal. lia.
Qed.

Lemma load_samples_in_int16 (m : mem) (p : Z) (n : nat) :
  Forall in_int16 (load_samples m p n).
Proof.
  unfold load_samples. apply Forall_map, Forall_forall.
  intros i _. apply to_int16_range.
Qed.

Lemma int16_bytes_length (samples : list Z) :
  length (flat_map int16_bytes samples) = (2 * length samples)%nat.
Proof.
  induction samples as [| v rest IH]; cbn [flat_map length app int16_bytes].
  - reflexivity.
  - rewrite IH. lia.
Qed.

Lemma store_samples_outside (samples : list Z) (m : mem) (p a : Z) :
  ~ in_region p (2 * Z.of_nat (length samples)) a ->
  store_samples m p samples a = m a.
Proof.
  intros Hout. unfold store_samples. apply store_bytes_outside.
  rewrite int16_bytes_length. unfold in_region in *. lia.
Qed.

Lemma load_store_samples (samples : list Z) (m : mem) (p : Z) :
  Forall in_int16 samples ->
  load_samples (store_samples m p samples) p (length samples) = samples.
Proof.
  unfold store_samples. intros Hall. revert m p.
  induction Hall as [| v rest Hv _ IH]; intros m p.
  - reflexivity.
  - cbn [length flat_map int16_bytes app store_bytes].
    rewrite load_samples_S. f_equal.
    + unfold load16, load8.
      rewrite !store_bytes_outside by (unfold in_region; lia).
      rewrite store8_other by lia. rewrite !store8_same.
      rewrite !to_uint8_idem. now apply to_int16_bytes.
    + replace (p + 2) with (p + 1 + 1) by lia. apply IH.
Qed.

Lemma half_up_div2 (n : nat) :
  Z.of_nat (Nat.div2 (S n)) = half_up (Z.of_nat n).
Proof.
  unfold half_up. rewrite Nat.div2_div, Nat2Z.inj_div.
  f_equal. lia.
Qed.

(** ** Loops *)

Lemma nat_pair_ind (P : nat -> Prop) :
  P 0%nat -> P 1%nat -> (forall n, P n -> P (S (S n))) -> forall n, P n.
Proof.
  intros H0 H1 Hstep.
  assert (Hboth : forall n, P n /\ P (S n)).
  { induction n as [| n [IHa IHb]].
    - split; assumption.
    - split; [exact IHb | now apply Hstep]. }
  intros n. apply Hboth.
Qed.

Lemma store_bytes_app (l1 l2 : list Z) (m : mem) (p : Z) :
  store_bytes m p (l1 ++ l2)
  = store_bytes (store_bytes m p l1) (p + Z.of_nat (length l1)) l2.
Proof.
  revert m p. induction l1 as [| b rest IH]; intros m p.
  - cbn [app store_bytes length]. now rewrite Z.add_0_r.
  - cbn [app store_bytes length]. rewrite IH. f_equal. lia.
Qed.

Lemma store16_outside (m : mem) (p v a : Z) :
  ~ in_region p 2 a -> store16 m p v a = m a.
Proof. intros Hout. unfold store16. now apply store_bytes_outside. Qed.


Section LoopFacts.

Context {T : CodecTables}.


Lemma encode_loop_outside (n : nat) :
  forall st m src dst a,
    ~ in_region dst (Z.of_nat (Nat.div2 (S n))) a ->
    snd (encode_loop n st m src dst) a = m a.
Proof.
  unfold in_region.
  induction n as [| | n IH] using nat_pair_ind; intros st m src dst a Hout.
  - reflexivity.
  - cbn [encode_loop snd]. apply store8_other. cbn in Hout. lia_div2.
  - cbn [encode_loop].
    change (Nat.div2 (S (S (S n)))) with (S (Nat.div2 (S n))) in Hout.
    rewrite IH by lia_div2. apply store8_other. lia_div2.
Qed.


Lemma decode_loop_outside (n : nat) :
  forall st m src dst a,
    ~ in_region dst (2 * Z.of_nat n) a ->
    decode_loop n st m src dst a = m a.
Proof.
  unfold in_region.
  induction n as [| | n IH] using nat_pair_ind; intros st m src dst a Hout.
  - reflexivity.
  - cbn [decode_loop]. apply store16_outside. unfold in_region. lia_div2.
  - cbn [decode_loop]. rewrite IH by lia_div2.
    rewrite !store16_outside by (unfold in_region; lia_div2). reflexivity.
Qed.

(** Away from its own output the loop computes the decoder of the bytes
    it finds at [src]. *)
Lemma decode_loop_samples (n : nat) :
  forall st m src dst,
    disjoint dst (2 * Z.of_nat n) src (Z.of_nat (Nat.div2 (S n))) ->
    decode_loop n st m src dst
    = store_samples m dst
        (firstn n (map fst (decode_run st
           (unpack_codes (load_bytes m src (Nat.div2 (S n))))))).
Proof.
  unfold disjoint, in_region.
  induction n as [| | n IH] using nat_pair_ind; intros st m src dst Hdis.
  - reflexivity.
  - change (Nat.div2 2) with 1%nat. rewrite load_bytes_S.
    cbn [load_bytes seq map unpack_codes decode_run firstn decode_loop].
    unfold store_samples, store16. cbn [flat_map].
    now rewrite app_nil_r.
  - cbn [decode_loop].
    change (Nat.div2 (S (S (S n)))) with (S (Nat.div2 (S n))) in *.
    rewrite IH by (intros a Ha; specialize (Hdis a); lia_div2).
    rewrite load_bytes_S.
    cbn [unpack_codes decode_run map firstn].
    unfold store_samples at 2. cbn [flat_map].
    rewrite !store_bytes_app.
    change (Z.of_nat (length (int16_bytes ?v))) with 2.
    unfold store_samples, store16.
    replace (dst + 2 + 2) with (dst + 4) by lia_div2.
    do 6 f_equal.
    apply load_bytes_ext. intros a Ha. unfold in_region in Ha.
    rewrite !store_bytes_outside; [reflexivity | |];
      unfold in_region; cbn [length int16_bytes]; intros Hin;
      specialize (Hdis a); lia_div2.
Qed.

End LoopFacts.

Lemma filter_loop_outside (filter_tap : list Z -> Z) (n : nat) :
  forall seen m src dst a,
    ~ in_region dst (2 * Z.of_nat n) a ->
    filter_loop filter_tap n seen m src dst a = m a.
Proof.
  unfold in_region.
  induction n as [| n IH]; intros seen m src dst a Hout.
  - reflexivity.
  - cbn [filter_loop]. rewrite IH by lia.
    apply store16_outside. unfold in_region. lia.
Qed.

(** ** Raw encode *)

Lemma half_up_to_nat (len : Z) :
  0 <= len -> Z.of_nat (Nat.div2 (S (Z.to_nat len))) = half_up len.
Proof. intros Hlen. now rewrite half_up_div2, Z2Nat.id. Qed.

Lemma half_up_pos (len : Z) : 0 < len -> 0 < half_up len.
Proof. intros Hlen. unfold half_up. apply Z.div_str_pos. lia. Qed.

Section EncodeFacts.

Context {T : CodecTables}.



Lemma yma_encode_outside (m : mem) (buffer outbuffer len a : Z) :
  ~ in_region outbuffer (half_up len) a ->
  snd (yma_encode m buffer outbuffer len) a = m a.
Proof.
  intros Hout. unfold yma_encode.
  destruct (len <=? 0) eqn:Hc; [reflexivity |]. cbn [snd].
  apply encode_loop_outside. now rewrite half_up_to_nat by lia.
Qed.




End EncodeFacts.






(** ** Raw decode, filter, wrapper *)

Lemma Forall_prefix (A : Type) (P : A -> Prop) (n : nat) (l : list A) :
  Forall P l -> Forall P (firstn n l).
Proof.
  intros Hall. revert n.
  induction Hall as [| x l Hx _ IH]; intros [| n]; cbn [firstn];
    constructor; [exact Hx | apply IH].
Qed.

Section DecodeFacts.

Context {T : CodecTables}.

Lemma unpack_codes_length (bytes : list Z) :
  length (unpack_codes bytes) = (2 * length bytes)%nat.
Proof.
  induction bytes as [| b rest IH]; cbn [unpack_codes length].
  - reflexivity.
  - rewrite IH. lia.
Qed.

Lemma decode_samples_length (bytes : list Z) (n : nat) :
  (n <= 2 * length bytes)%nat -> length (decode_samples bytes n) = n.
Proof.
  intros Hn. unfold decode_samples.
  rewrite length_firstn, length_map, decode_run_length, unpack_codes_length.
  lia.
Qed.

Lemma decode_samples_in_int16 (bytes : list Z) (n : nat) :
  Forall in_int16 (decode_samples bytes n).
Proof.
  unfold decode_samples. apply Forall_prefix.
  rewrite decode_run_samples. apply Forall_map, decode_states_saturate.
Qed.

Lemma yma_decode_outside (m : mem) (buffer outbuffer len a : Z) :
  ~ in_region outbuffer (2 * len) a ->
  snd (yma_decode m buffer outbuffer len) a = m a.
Proof.
  intros Hout. unfold yma_decode. cbn [snd].
  apply decode_loop_outside. unfold in_region in *. lia.
Qed.

Lemma yma_decode_samples (m : mem) (buffer outbuffer len : Z) :
  0 <= len ->
  disjoint outbuffer (2 * len) buffer (half_up len) ->
  snd (yma_decode m buffer outbuffer len)
  = store_samples m outbuffer
      (decode_samples
         (load_bytes m buffer (Z.to_nat (half_up len))) (Z.to_nat len)).
Proof.
  intros Hlen Hdis. unfold yma_decode, decode_samples. cbn [snd].
  rewrite decode_loop_samples.
  - rewrite <- (half_up_to_nat len Hlen), Nat2Z.id. reflexivity.
  - now rewrite half_up_to_nat, Z2Nat.id by lia.
Qed.

(** What a call leaves in its output buffer, when that buffer is apart
    from the input. *)
Lemma yma_decode_output (m : mem) (buffer outbuffer len : Z) :
  0 <= len ->
  disjoint outbuffer (2 * len) buffer (half_up len) ->
  load_samples (snd (yma_decode m buffer outbuffer len)) outbuffer
    (Z.to_nat len)
  = decode_samples
      (load_bytes m buffer (Z.to_nat (half_up len))) (Z.to_nat len).
Proof.
  intros Hlen Hdis. rewrite yma_decode_samples by assumption.
  set (out := decode_samples _ _).
  assert (Hn : length out = Z.to_nat len).
  { apply decode_samples_length. rewrite load_bytes_length.
    apply Nat2Z.inj_le. rewrite Nat2Z.inj_mul, !Z2Nat.id.
    - unfold half_up. change (Z.of_nat 2) with 2.
      pose proof (Z.mul_div_le (len + 1) 2 ltac:(lia)).
      pose proof (Z.mod_pos_bound (len + 1) 2 ltac:(lia)).
      pose proof (Z.div_mod (len + 1) 2 ltac:(lia)). lia.
    - unfold half_up. apply Z.div_pos; lia.
    - exact Hlen. }
  rewrite <- Hn. apply load_store_samples, decode_samples_in_int16.
Qed.

End DecodeFacts.

Lemma bandpass_filter_outside (filter_tap : list Z -> Z)
    (m : mem) (input output length a : Z) :
  ~ in_region output (2 * length) a ->
  snd (bandpass_filter filter_tap m input output length) a = m a.
Proof.
  intros Hout. unfold bandpass_filter. cbn [snd].
  apply filter_loop_outside. unfold in_region in *. lia.
Qed.


(** ** Supporting facts *)

(** The two reporting conventions of the header: [yma_encode] and the
    wrapper return a status, the raw decoder, the filter and the release
    function return nothing. *)
Lemma reporting_conventions :
  map returns_value
    [decl_yma_encode; decl_yma_decode; decl_bandpass_filter;
     decl_adpcm_to_pcm_for_swift; decl_free_pcm_data]
  = [true; false; false; true; false].
Proof. reflexivity. Qed.

(** Only the wrapper declares its input read-only. *)
Lemma const_inputs :
  map (fun p => hd Tvoid (proto_params p))
    [decl_yma_encode; decl_yma_decode; decl_bandpass_filter;
     decl_adpcm_to_pcm_for_swift]
  = [Tptr Tint16; Tptr Tuint8; Tptr Tint16; Tptr (Tconst Tuint8)].
Proof. reflexivity. Qed.

Lemma CLAMP_closer (v s low high : Z) :
  low <= s <= high -> Z.abs (CLAMP v low high - s) <= Z.abs (v - s).
Proof.
  intros Hs. unfold CLAMP.
  destruct (v >? high) eqn:Hhi; [lia |].
  destruct (v <? low) eqn:Hlo; lia.
Qed.

Lemma magnitude_bits (mag : Z) :
  0 <= mag < 8 ->
  Z.testbit mag 3 = false /\ Z.land mag 7 = mag /\
  Z.testbit (Z.lor mag 8) 3 = true /\ Z.land (Z.lor mag 8) 7 = mag.
Proof.
  intros Hm.
  assert (Hcases : mag = 0 \/ mag = 1 \/ mag = 2 \/ mag = 3 \/
                   mag = 4 \/ mag = 5 \/ mag = 6 \/ mag = 7) by lia.
  repeat (destruct Hcases as [-> | Hcases]; [repeat split |]).
  subst mag. repeat split.
Qed.

Section ResidualFacts.

Context {T : CodecTables}.

(** One encoded sample is reconstructed no further from the original than
    the quantiser's residual: saturation only moves the predictor towards
    a 16-bit sample. *)
Lemma yma_encode_step_error (s : Z) (st : codec_state) :
  in_int16 s ->
  Z.abs (history (snd (yma_encode_step s st)) - s) <= quantizer_residual st s.
Proof.
  intros Hs. unfold yma_encode_step, quantizer_residual, yma_step.
  cbn [snd history].
  set (step_size := step_size_at (step_hist st)).
  set (mag := Z.land (quantize (Z.abs (s - history st)) step_size) 7).
  destruct (magnitude_bits mag (land_7_range _)) as (Hb0 & Hl0 & Hb1 & Hl1).
  destruct (s - history st <? 0) eqn:Hneg.
  - rewrite Hb1, Hl1.
    etransitivity; [apply CLAMP_closer; exact Hs |]. lia.
  - rewrite Hb0, Hl0.
    etransitivity; [apply CLAMP_closer; exact Hs |]. lia.
Qed.

Lemma encode_run_error (pcm : list Z) :
  forall st,
    Forall in_int16 pcm ->
    Forall2 (fun ds bound => Z.abs (fst ds - snd ds) <= bound)
      (combine (map history (encode_states st pcm)) pcm)
      (encode_residuals st pcm).
Proof.
  unfold encode_states.
  induction pcm as [| s rest IH]; intros st Hall;
    cbn [encode_run map combine encode_residuals].
  - constructor.
  - inversion Hall as [| ? ? Hs Hrest]; subst. constructor.
    + cbn [fst snd]. now apply yma_encode_step_error.
    + now apply IH.
Qed.

End ResidualFacts.

(** With the sample constants, a difference the current step size can
    follow is reconstructed to within an eighth of the step, and one it
    cannot follow is not. *)
Example residual_small_and_large :
  map (@quantizer_residual sample_tables (@seed_state sample_tables))
    [0; 5; 17; 29; 30; 31; 1000; 32767]
  = [2; 1; 1; 1; 0; 1; 970; 32737].
Proof. reflexivity. Qed.

Section FilterFacts.

Variable filter_tap : list Z -> Z.




End FilterFacts.

(** ** Wider cells *)

Lemma le_bytes_length (n : nat) : forall v, length (le_bytes n v) = n.
Proof.
  induction n as [| n IH]; intros v; cbn [le_bytes length].
  - reflexivity.
  - now rewrite IH.
Qed.




Lemma store_le_outside (m : mem) (p : Z) (n : nat) (v a : Z) :
  ~ in_region p (Z.of_nat n) a -> store_le m p n v a = m a.
Proof.
  intros Hout. unfold store_le. apply store_bytes_outside.
  now rewrite le_bytes_length.
Qed.









(** ** Boundary wrapper *)

Section WrapperFacts.

Context {T : CodecTables} {A : Allocator}.



Lemma wrapper_succeeds (h : heap) (m : mem)
    (adpcm_data adpcm_length pcm_data pcm_length : Z) :
  adpcm_data <> 0 -> 0 < adpcm_length ->
  to_uint64 (fst (malloc h (2 * to_int32 (2 * adpcm_length)))) <> 0 ->
  adpcm_to_pcm_for_swift h m adpcm_data adpcm_length pcm_data pcm_length
  = {| wr_status := 0;
       wr_heap := snd (malloc h (2 * to_int32 (2 * adpcm_length)));
       wr_mem :=
         store_le
           (store_le
              (snd (yma_decode m adpcm_data
                      (to_uint64
                         (fst (malloc h (2 * to_int32 (2 * adpcm_length)))))
                      (to_int32 (2 * adpcm_length))))
              pcm_data 8
              (to_uint64 (fst (malloc h (2 * to_int32 (2 * adpcm_length))))))
           pcm_length 4 (to_int32 (2 * adpcm_length)) |}.
Proof.
  intros Hptr Hlen Hok. unfold adpcm_to_pcm_for_swift.
  destruct ((adpcm_data =? 0) || (adpcm_length <=? 0)) eqn:Hc.
  - apply orb_prop in Hc. lia.
  - cbv zeta.
    destruct (to_uint64 (fst (malloc h (2 * to_int32 (2 * adpcm_length))))
              =? 0) eqn:Hz; [lia | reflexivity].
Qed.

(** The cells a call may change: the buffer it obtained and the two cells
    behind its output parameters. *)
Lemma wrapper_outside (h : heap) (m : mem)
    (adpcm_data adpcm_length pcm_data pcm_length a : Z) :
  ~ in_region (to_uint64 (fst (malloc h (2 * to_int32 (2 * adpcm_length)))))
      (2 * to_int32 (2 * adpcm_length)) a ->
  ~ in_region pcm_data 8 a ->
  ~ in_region pcm_length 4 a ->
  wr_mem (adpcm_to_pcm_for_swift h m adpcm_data adpcm_length
            pcm_data pcm_length) a
  = m a.
Proof.
  intros Hblock Hdata Hlength. unfold adpcm_to_pcm_for_swift.
  destruct ((adpcm_data =? 0) || (adpcm_length <=? 0)); [reflexivity |].
  cbv zeta.
  destruct (to_uint64 (fst (malloc h (2 * to_int32 (2 * adpcm_length))))
            =? 0); [reflexivity |].
  cbn [wr_mem].
  rewrite !store_le_outside by assumption.
  now apply yma_decode_outside.
Qed.

End WrapperFacts.




(** ** Silent convention *)



(** ** Borrowed inputs *)

(** Whatever the tables, the seeds and the quantiser: the code of a
    sample 32767 has its sign bit clear, so the byte an in-place call
    writes over the first input cell is never 255. *)
Lemma in_place_encode_changes_input {T : CodecTables}
    (m : mem) (buffer : Z) :
  load8 m buffer = 255 ->
  load16 m (buffer + 2) = 32767 ->
  load8 (snd (yma_encode m buffer buffer 2)) buffer <> load8 m buffer.
Proof.
  intros Hlow Hsecond Hsame. rewrite Hlow in Hsame.
  unfold yma_encode in Hsame. cbn [Z.leb Z.compare] in Hsame.
  change (Z.to_nat 2) with 2%nat in Hsame.
  cbn [encode_loop snd] in Hsame. rewrite Hsecond in Hsame.
  unfold load8 in Hsame. rewrite store8_same, to_uint8_idem in Hsame.
  set (st1 := snd (yma_encode_step (load16 m buffer) seed_state)) in Hsame.
  set (c1 := fst (yma_encode_step (load16 m buffer) seed_state)) in Hsame.
  set (c2 := fst (yma_encode_step 32767 st1)) in Hsame.
  rewrite to_uint8_small in Hsame by apply pack_nibbles_byte.
  assert (Hc2 : 0 <= c2 < 8).
  { unfold c2, yma_encode_step. cbn [fst].
    pose proof (yma_encode_step_saturates (load16 m buffer) seed_state)
      as Hsat.
    fold st1 in Hsat. unfold in_int16, int16_min, int16_max in Hsat.
    destruct (32767 - history st1 <? 0) eqn:Hneg; [lia |].
    apply land_7_range. }
  pose proof (unpack_pack c1 c2) as Hup. rewrite Hsame in Hup.
  rewrite (land_15_small c2) in Hup by lia.
  clearbody c1 c2 st1. unfold unpack_nibbles in Hup.
  change (Z.land (Z.shiftr 255 4) 15) with 15 in Hup.
  change (Z.land 255 15) with 15 in Hup.
  destruct high_nibble_first; injection Hup as H1 H2; lia.
Qed.

(** C9, where the claim fails.  A caller passes one buffer as input and
    output of [yma_encode]: for no choice of tables, seeds and quantiser
    is the first input cell left as it was.  A caller aims [pcm_length]
    at the wrapper's input: whatever the tables, the first input cell
    holds the length afterwards. *)
Lemma input_overwritten_when_buffers_overlap :
  (let m := store_samples zero_mem 100 [255; 32767] in
   ~ (exists T : CodecTables,
        load8 (snd (@yma_encode T m 100 100 2)) 100 = load8 m 100)) /\
  (let m := store_bytes zero_mem 100 [7] in
   ~ (exists T : CodecTables,
        load8 (wr_mem (@adpcm_to_pcm_for_swift T bump_allocator
                         4096 m 100 1 200 100)) 100 = load8 m 100)).
Proof.
  split; cbv zeta.
  - intros [T Hsame]. revert Hsame.
    apply in_place_encode_changes_input; reflexivity.
  - intros [T Hsame].
    rewrite (@wrapper_succeeds T bump_allocator) in Hsame;
      [| lia | lia | vm_compute; discriminate].
    cbn [wr_mem] in Hsame. unfold load8, store_le in Hsame.
    change (to_int32 (2 * 1)) with 2 in Hsame.
    cbn [le_bytes store_bytes] in Hsame.
    rewrite 3 store8_other in Hsame by lia.
    rewrite !store8_same in Hsame. vm_compute in Hsame. discriminate.
Qed.

(** C9, amended: every call of [yma_encode], [yma_decode],
    [bandpass_filter] and the boundary wrapper in which the cells the
    call writes (the output buffer; for the wrapper the buffer it
    obtains from the allocator and the two cells behind [pcm_data] and
    [pcm_length]) do not overlap the input buffer leaves every cell of
    the input buffer as it was. *)
Theorem input_buffer_unchanged {T : CodecTables} {A : Allocator}
    (filter_tap : list Z -> Z) (h : heap) (m : mem) :
  (forall buffer outbuffer len a,
      disjoint outbuffer (half_up len) buffer (2 * len) ->
      in_region buffer (2 * len) a ->
      snd (yma_encode m buffer outbuffer len) a = m a) /\
  (forall buffer outbuffer len a,
      disjoint outbuffer (2 * len) buffer (half_up len) ->
      in_region buffer (half_up len) a ->
      snd (yma_decode m buffer outbuffer len) a = m a) /\
  (forall input output length a,
      disjoint output (2 * length) input (2 * length) ->
      in_region input (2 * length) a ->
      snd (bandpass_filter filter_tap m input output length) a = m a) /\
  (forall adpcm_data adpcm_length pcm_data pcm_length a,
      disjoint (to_uint64 (fst (malloc h (2 * to_int32 (2 * adpcm_length)))))
        (2 * to_int32 (2 * adpcm_length)) adpcm_data adpcm_length ->
      disjoint pcm_data 8 adpcm_data adpcm_length ->
      disjoint pcm_length 4 adpcm_data adpcm_length ->
      in_region adpcm_data adpcm_length a ->
      wr_mem (adpcm_to_pcm_for_swift h m adpcm_data adpcm_length
                pcm_data pcm_length) a
      = m a).
Proof.
  split; [| split; [| split]].
  - intros buffer outbuffer len a Hdis Ha.
    apply yma_encode_outside. intros Hin. exact (Hdis a Hin Ha).
  - intros buffer outbuffer len a Hdis Ha.
    apply yma_decode_outside. intros Hin. exact (Hdis a Hin Ha).
  - intros input output length a Hdis Ha.
    apply bandpass_filter_outside. intros Hin. exact (Hdis a Hin Ha).
  - intros adpcm_data adpcm_length pcm_data pcm_length a Hb Hd Hl Ha.
    apply wrapper_outside; intros Hin;
      [exact (Hb a Hin Ha) | exact (Hd a Hin Ha) | exact (Hl a Hin Ha)].
Qed.

Lemma input_buffer_unchanged_witness :
  let m := store_samples zero_mem 100 [1000; -2000] in
  snd (@yma_encode sample_tables m 100 200 2) 100 = m 100 /\
  snd (@yma_decode sample_tables m 100 200 4) 101 = m 101 /\
  snd (bandpass_filter (fun xs => last xs 0) m 100 200 2) 102 = m 102 /\
  wr_mem (@adpcm_to_pcm_for_swift sample_tables bump_allocator
            4096 m 100 4 200 300) 103 = m 103.
Proof.
  intros m.
  destruct (@input_buffer_unchanged sample_tables bump_allocator
              (fun xs => last xs 0) 4096 m)
    as (Henc & Hdec & Hfil & Hwrap).
  split; [| split; [| split]].
  - apply Henc.
    + unfold disjoint, in_region, half_up. cbn. intros; lia.
    + unfold in_region. lia.
  - apply Hdec.
    + unfold disjoint, in_region, half_up. cbn. intros; lia.
    + unfold in_region, half_up. cbn. lia.
  - apply Hfil.
    + unfold disjoint, in_region. intros; lia.
    + unfold in_region. lia.
  - apply Hwrap.
    + unfold disjoint, in_region. cbn. intros; lia.
    + unfold disjoint, in_region. intros; lia.
    + unfold disjoint, in_region. intros; lia.
    + unfold in_region. lia.
Defined.

(** * Further properties *)

(** ** The macro, beyond its contract *)

Lemma to_int16_small (v : Z) : in_int16 v -> to_int16 v = v.
Proof.
  unfold in_int16, int16_min, int16_max, to_int16. intros Hv.
  destruct (Z_lt_le_dec v 0) as [Hneg | Hpos].
  - assert (Hm : v mod 65536 = v + 65536).
    { symmetry. apply (Z.mod_unique v 65536 (-1)); lia. }
    rewrite Hm. destruct (v + 65536 <? 32768) eqn:Hc; lia.
  - rewrite Z.mod_small by lia.
    destruct (v <? 32768) eqn:Hc; lia.
Qed.

(** X1: CLAMP returns its first argument unchanged exactly when that
    argument lies in [[low, high]]; with inverted bounds that interval is
    empty and the result is never the argument. *)
Theorem CLAMP_fixed_point_iff (x low high : Z) :
  CLAMP x low high = x <-> low <= x <= high.
Proof.
  unfold CLAMP.
  destruct (x >? high) eqn:Hhi; destruct (x <? low) eqn:Hlo; lia.
Qed.

(** X2: for [low <= high] the macro is the usual composition of a minimum
    and a maximum, in either order. *)
Theorem CLAMP_is_min_max (x low high : Z) :
  low <= high ->
  CLAMP x low high = Z.max low (Z.min x high) /\
  CLAMP x low high = Z.min high (Z.max low x).
Proof.
  intros Hle. unfold CLAMP.
  destruct (x >? high) eqn:Hhi; destruct (x <? low) eqn:Hlo; lia.
Qed.

Lemma CLAMP_is_min_max_witness :
  CLAMP 70000 (-32768) 32767 = Z.max (-32768) (Z.min 70000 32767) /\
  CLAMP 70000 (-32768) 32767 = Z.min 32767 (Z.max (-32768) 70000).
Proof. apply (CLAMP_is_min_max 70000 (-32768) 32767). lia. Defined.

(** X3: for [low <= high] the macro is monotone in its first argument; for
    inverted bounds it is not, a larger argument can give a smaller
    result. *)
Theorem CLAMP_monotone (low high : Z) :
  (low <= high ->
     forall x y, x <= y -> CLAMP x low high <= CLAMP y low high) /\
  (low > high ->
     CLAMP high low high > CLAMP (high + 1) low high).
Proof.
  split.
  - intros Hle x y Hxy. unfold CLAMP.
    destruct (x >? high) eqn:Hx1; destruct (x <? low) eqn:Hx2;
      destruct (y >? high) eqn:Hy1; destruct (y <? low) eqn:Hy2; lia.
  - intros Hgt. unfold CLAMP.
    destruct (high >? high) eqn:H1; destruct (high <? low) eqn:H2;
      destruct (high + 1 >? high) eqn:H3; lia.
Qed.

Lemma CLAMP_monotone_witness :
  CLAMP (-5) 0 48 <= CLAMP 60 0 48 /\ CLAMP 0 10 0 > CLAMP (0 + 1) 10 0.
Proof.
  split.
  - apply (proj1 (CLAMP_monotone 0 48)); lia.
  - apply (proj2 (CLAMP_monotone 10 0)); lia.
Defined.

(** X4: for [low <= high] the macro never moves two values apart: the
    distance between two clamped values is at most the distance between
    the values. *)
Theorem CLAMP_nonexpansive (x y low high : Z) :
  low <= high ->
  Z.abs (CLAMP x low high - CLAMP y low high) <= Z.abs (x - y).
Proof.
  intros Hle. unfold CLAMP.
  destruct (x >? high) eqn:Hx1; destruct (x <? low) eqn:Hx2;
    destruct (y >? high) eqn:Hy1; destruct (y <? low) eqn:Hy2; lia.
Qed.

Lemma CLAMP_nonexpansive_witness :
  Z.abs (CLAMP 40000 (-32768) 32767 - CLAMP 32000 (-32768) 32767)
  <= Z.abs (40000 - 32000).
Proof. apply (CLAMP_nonexpansive 40000 32000 (-32768) 32767). lia. Defined.

(** X5: clamping twice is the same as clamping once for every argument
    exactly when the bounds are in order. *)
Theorem CLAMP_idempotent_iff (low high : Z) :
  (forall x, CLAMP (CLAMP x low high) low high = CLAMP x low high)
  <-> low <= high.
Proof.
  split.
  - intros Hidem. destruct (Z_le_gt_dec low high) as [Hle | Hgt];
      [exact Hle |].
    specialize (Hidem low). unfold CLAMP in Hidem.
    destruct (low >? high) eqn:H1; [| lia].
    destruct (high >? high) eqn:H2; [lia |].
    destruct (high <? low) eqn:H3; lia.
  - intros Hle x. apply CLAMP_fixes_range. now apply CLAMP_in_range.
Qed.

(** X6: with inverted bounds the macro answers one of the two bounds,
    [high] above [high] and [low] otherwise, never its argument, and a
    second application answers the other bound. *)
Theorem CLAMP_inverted_bounds (x low high : Z) :
  low > high ->
  CLAMP x low high = (if x >? high then high else low) /\
  CLAMP x low high <> x /\
  CLAMP (CLAMP x low high) low high = (if x >? high then low else high).
Proof.
  intros Hgt. unfold CLAMP.
  destruct (x >? high) eqn:Hx1.
  - destruct (high >? high) eqn:H1; [lia |].
    destruct (high <? low) eqn:H2; [| lia].
    repeat split; lia.
  - destruct (x <? low) eqn:Hx2; [| lia].
    destruct (low >? high) eqn:H1; [| lia].
    repeat split; lia.
Qed.

Lemma CLAMP_inverted_bounds_witness :
  CLAMP 5 10 0 = (if 5 >? 0 then 0 else 10) /\
  CLAMP 5 10 0 <> 5 /\
  CLAMP (CLAMP 5 10 0) 10 0 = (if 5 >? 0 then 10 else 0).
Proof. apply (CLAMP_inverted_bounds 5 10 0). lia. Defined.

(** X7: clamping to a range and then to a wider one, or to a wider one
    and then to the range, is clamping to the range. *)
Theorem CLAMP_nested (x low high low' high' : Z) :
  low' <= low -> low <= high -> high <= high' ->
  CLAMP (CLAMP x low high) low' high' = CLAMP x low high /\
  CLAMP (CLAMP x low' high') low high = CLAMP x low high.
Proof.
  intros H1 H2 H3. split.
  - apply CLAMP_fixes_range.
    pose proof (CLAMP_in_range x low high H2). lia.
  - unfold CLAMP.
    destruct (x >? high') eqn:Ha; destruct (x <? low') eqn:Hb;
      destruct (x >? high) eqn:Hc; destruct (x <? low) eqn:Hd;
      destruct (high' >? high) eqn:He; destruct (high' <? low) eqn:Hf;
      destruct (low' >? high) eqn:Hg; destruct (low' <? low) eqn:Hh;
      lia.
Qed.

Lemma CLAMP_nested_witness :
  CLAMP (CLAMP 99 0 48) (-32768) 32767 = CLAMP 99 0 48 /\
  CLAMP (CLAMP 99 (-32768) 32767) 0 48 = CLAMP 99 0 48.
Proof. apply (CLAMP_nested 99 0 48 (-32768) 32767); lia. Defined.

(** X8: the macro commutes with a shift of argument and bounds, whatever
    the bounds; for [low <= high] it commutes with negation, the bounds
    swapping roles. *)
Theorem CLAMP_shift_negate (x low high c : Z) :
  CLAMP (x + c) (low + c) (high + c) = CLAMP x low high + c /\
  (low <= high -> CLAMP (- x) (- high) (- low) = - CLAMP x low high).
Proof.
  unfold CLAMP. split.
  - destruct (x + c >? high + c) eqn:H1; destruct (x + c <? low + c) eqn:H2;
      destruct (x >? high) eqn:H3; destruct (x <? low) eqn:H4; lia.
  - intros Hle.
    destruct (- x >? - low) eqn:H1; destruct (- x <? - high) eqn:H2;
      destruct (x >? high) eqn:H3; destruct (x <? low) eqn:H4; lia.
Qed.

Lemma CLAMP_shift_negate_witness :
  CLAMP (- 40000) (- 32767) (- (-32768)) = - CLAMP 40000 (-32768) 32767.
Proof.
  apply (proj2 (CLAMP_shift_negate 40000 (-32768) 32767 0)). lia.
Defined.

(** X9: a value clamped to the 16-bit signed range is stored in an
    [int16_t] without change, and one clamped to [[0, 255]] in a
    [uint8_t] without change. *)
Theorem CLAMP_fits_fixed_width (x : Z) :
  to_int16 (CLAMP x int16_min int16_max) = CLAMP x int16_min int16_max /\
  to_uint8 (CLAMP x 0 255) = CLAMP x 0 255.
Proof.
  split.
  - apply to_int16_small. unfold in_int16.
    apply CLAMP_in_range. unfold int16_min, int16_max. lia.
  - apply to_uint8_small.
    pose proof (CLAMP_in_range x 0 255 ltac:(lia)). lia.
Qed.

(** ** The codec, beyond its contract *)

Section StepIndex.

Context {T : CodecTables}.

Hypothesis table_size : (0 < length step_table <= 256)%nat.

Lemma yma_step_index (step : Z) (st : codec_state) :
  step_index_ok (snd (yma_step step st)).
Proof.
  unfold step_index_ok, yma_step. cbn [snd step_hist].
  set (adjusted := step_hist st + _).
  assert (Hlast : 0 <= Z.of_nat (length step_table) - 1) by lia.
  pose proof (CLAMP_in_range adjusted 0 _ Hlast) as Hc.
  rewrite to_uint8_small by lia. lia.
Qed.

Lemma yma_encode_step_index (input : Z) (st : codec_state) :
  step_index_ok (snd (yma_encode_step input st)).
Proof. unfold yma_encode_step. cbn [snd]. apply yma_step_index. Qed.

Lemma step_size_in_table (st : codec_state) :
  step_index_ok st -> In (step_size_at (step_hist st)) step_table.
Proof.
  unfold step_index_ok, step_size_at. intros Hok.
  apply nth_In. lia.
Qed.

Lemma encode_states_index (pcm : list Z) :
  forall st, Forall step_index_ok (encode_states st pcm).
Proof.
  unfold encode_states.
  induction pcm as [| s rest IH]; intros st; cbn [encode_run map].
  - constructor.
  - constructor; [apply yma_encode_step_index | apply IH].
Qed.

Lemma decode_states_index (codes : list Z) :
  forall st, Forall step_index_ok (decode_states st codes).
Proof.
  unfold decode_states.
  induction codes as [| c rest IH]; intros st; cbn [decode_run map].
  - constructor.
  - constructor; [apply yma_step_index | apply IH].
Qed.

End StepIndex.

(** X10: in the codec modelled from the interface specification, with a
    step table of 1 to 256 entries, every update of [yma_step] or
    [yma_encode_step] leaves a step index that points into the table,
    whatever the code, the sample and the state before; so along any
    encoding or decoding run the step size used next is always an entry
    of the table. *)
Theorem step_index_stays_in_table {T : CodecTables}
    (st : codec_state) (pcm codes : list Z) :
  (0 < length step_table <= 256)%nat ->
  Forall (fun s => step_index_ok s /\
                   In (step_size_at (step_hist s)) step_table)
    (encode_states st pcm) /\
  Forall (fun s => step_index_ok s /\
                   In (step_size_at (step_hist s)) step_table)
    (decode_states st codes).
Proof.
  intros Hsize. split.
  - eapply Forall_impl; [| apply (encode_states_index Hsize)].
    intros s Hs. split; [exact Hs | now apply step_size_in_table].
  - eapply Forall_impl; [| apply (decode_states_index Hsize)].
    intros s Hs. split; [exact Hs | now apply step_size_in_table].
Qed.

Lemma step_index_stays_in_table_witness :
  Forall (fun s => @step_index_ok sample_tables s /\
                   In (@step_size_at sample_tables (step_hist s))
                      (@step_table sample_tables))
    (@encode_states sample_tables {| history := 0; step_hist := 48 |}
       [32767; -32768; 32767]) /\
  Forall (fun s => @step_index_ok sample_tables s /\
                   In (@step_size_at sample_tables (step_hist s))
                      (@step_table sample_tables))
    (@decode_states sample_tables {| history := 0; step_hist := 48 |}
       [7; 15; 0]).
Proof.
  apply (@step_index_stays_in_table sample_tables).
  cbn. lia.
Defined.

(** ** Any length *)

Section AnyLength.

Context {T : CodecTables}.

Lemma firstn_unpack_pack (cs : list Z) :
  Forall (fun c => 0 <= c < 16) cs ->
  firstn (length cs) (unpack_codes (pack_codes cs)) = cs.
Proof.
  induction cs as [| c | c1 c2 rest IH] using list_pair_ind; intros Hcs.
  - reflexivity.
  - inversion Hcs as [| ? ? H1 _]; subst.
    cbn [pack_codes unpack_codes length firstn].
    rewrite unpack_pack. cbn [fst]. now rewrite land_15_small.
  - inversion Hcs as [| ? ? H1 Hcs']; subst.
    inversion Hcs' as [| ? ? H2 Hrest]; subst.
    cbn [pack_codes unpack_codes length firstn].
    rewrite unpack_pack. cbn [fst snd].
    rewrite (land_15_small c1 H1), (land_15_small c2 H2).
    now rewrite IH.
Qed.

Lemma decode_run_firstn (codes : list Z) :
  forall n st,
    firstn n (decode_run st codes) = decode_run st (firstn n codes).
Proof.
  induction codes as [| c rest IH]; intros [| n] st;
    cbn [decode_run firstn]; try reflexivity.
  now rewrite IH.
Qed.

(** Told the sample count, the decoder gives back the encoder's predictor
    values for an input of any length. *)
Lemma decode_encode_any_length (pcm : list Z) :
  decode_samples (encode_samples pcm) (length pcm)
  = map history (encode_states seed_state pcm).
Proof.
  unfold decode_samples, encode_samples.
  rewrite firstn_map, decode_run_firstn.
  assert (Hlen : length (encode_codes seed_state pcm) = length pcm).
  { unfold encode_codes. now rewrite length_map, encode_run_length. }
  rewrite <- Hlen at 1.
  rewrite firstn_unpack_pack by apply encode_codes_nibbles.
  rewrite decode_run_samples, decode_tracks_encode. reflexivity.
Qed.

End AnyLength.

(** X12: in the codec modelled from the interface specification, each
    sample the decoder gives back is no further from the 16-bit original
    than the quantiser's residual at the state the encoder met that
    sample in: the difference between the magnitude to encode and the
    magnitude its 3-bit code stands for at the current step size. *)
Theorem decoded_error_within_residual {T : CodecTables} (pcm : list Z) :
  Forall in_int16 pcm ->
  Forall2 (fun ds bound => Z.abs (fst ds - snd ds) <= bound)
    (combine (decode_samples (encode_samples pcm) (length pcm)) pcm)
    (encode_residuals seed_state pcm).
Proof.
  intros Hpcm. rewrite decode_encode_any_length.
  now apply encode_run_error.
Qed.

Lemma decoded_error_within_residual_witness :
  let pcm := [0; 100; 200; 100] in
  Forall2 (fun ds bound => Z.abs (fst ds - snd ds) <= bound)
    (combine (@decode_samples sample_tables
                (@encode_samples sample_tables pcm) (length pcm)) pcm)
    (@encode_residuals sample_tables (@seed_state sample_tables) pcm).
Proof.
  apply (@decoded_error_within_residual sample_tables [0; 100; 200; 100]).
  repeat constructor; vm_compute; discriminate.
Defined.

(** ** Raw decode and the buffers around it *)

(** X13: in the decoder modelled from the interface specification, any
    bytes decode: for a sample count [len >= 0] and an output buffer apart
    from the input, [yma_decode] leaves exactly [len] samples in the
    output buffer, the decoder's samples for the ceil(len/2) bytes at
    [buffer], each of them a 16-bit value. *)
Theorem yma_decode_length_contract {T : CodecTables}
    (m : mem) (buffer outbuffer len : Z) :
  0 <= len ->
  disjoint outbuffer (2 * len) buffer (half_up len) ->
  let decoded :=
    load_samples (snd (yma_decode m buffer outbuffer len)) outbuffer
      (Z.to_nat len) in
  decoded
  = decode_samples (load_bytes m buffer (Z.to_nat (half_up len)))
      (Z.to_nat len) /\
  length decoded = Z.to_nat len /\
  Forall in_int16 decoded.
Proof.
  intros Hlen Hdis decoded.
  assert (Hdec : decoded
                 = decode_samples
                     (load_bytes m buffer (Z.to_nat (half_up len)))
                     (Z.to_nat len))
    by now apply yma_decode_output.
  split; [exact Hdec |]. split.
  - unfold decoded. apply load_samples_length.
  - rewrite Hdec. apply decode_samples_in_int16.
Qed.

Lemma yma_decode_length_contract_witness :
  let m := store_bytes zero_mem 100 [7; 120; 204; 180] in
  let decoded :=
    load_samples (snd (@yma_decode sample_tables m 100 200 8)) 200 8 in
  decoded = @decode_samples sample_tables [7; 120; 204; 180] 8 /\
  length decoded = 8%nat /\
  Forall in_int16 decoded.
Proof.
  intros m decoded.
  destruct (@yma_decode_length_contract sample_tables m 100 200 8)
    as (Hdec & Hlen & Hall).
  - lia.
  - unfold disjoint, in_region, half_up. cbn. intros; lia.
  - split; [exact Hdec |]. split; [exact Hlen | exact Hall].
Defined.

(** X14: in the entry points modelled from the interface specification,
    whatever the arguments, pointers null or overlapping included,
    [yma_decode] changes no cell outside the 2 * len cells at
    [outbuffer], [bandpass_filter] none outside the 2 * length cells at
    [output], and the boundary wrapper none outside the buffer it
    obtained from the allocator and the two cells behind [pcm_data] and
    [pcm_length]. *)
Theorem writes_stay_in_output {T : CodecTables} {A : Allocator}
    (filter_tap : list Z -> Z) (h : heap) (m : mem)
    (src dst len pcm_data pcm_length a : Z) :
  (~ in_region dst (2 * len) a ->
     snd (yma_decode m src dst len) a = m a) /\
  (~ in_region dst (2 * len) a ->
     snd (bandpass_filter filter_tap m src dst len) a = m a) /\
  (~ in_region (to_uint64 (fst (malloc h (2 * to_int32 (2 * len)))))
       (2 * to_int32 (2 * len)) a ->
   ~ in_region pcm_data 8 a ->
   ~ in_region pcm_length 4 a ->
   wr_mem (adpcm_to_pcm_for_swift h m src len pcm_data pcm_length) a = m a).
Proof.
  split; [| split].
  - apply yma_decode_outside.
  - apply bandpass_filter_outside.
  - apply wrapper_outside.
Qed.

Lemma writes_stay_in_output_witness :
  let m := store_bytes zero_mem 100 [7; 120; 204; 180] in
  snd (@yma_decode sample_tables m 100 101 4) 100 = m 100 /\
  snd (bandpass_filter (fun xs => last xs 0) m 100 100 2) 104 = m 104 /\
  wr_mem (@adpcm_to_pcm_for_swift sample_tables bump_allocator
            4096 m 100 4 200 300) 103 = m 103.
Proof.
  intros m. split; [| split].
  - apply (proj1 (@writes_stay_in_output sample_tables bump_allocator
                    (fun xs => last xs 0) 4096 m 100 101 4 200 300 100)).
    unfold in_region. lia.
  - apply (proj1 (proj2 (@writes_stay_in_output sample_tables bump_allocator
                           (fun xs => last xs 0) 4096 m 100 100 2
                           200 300 104))).
    unfold in_region. lia.
  - apply (proj2 (proj2 (@writes_stay_in_output sample_tables bump_allocator
                           (fun xs => last xs 0) 4096 m 100 100 4
                           200 300 103))).
    + unfold in_region. cbn. lia.
    + unfold in_region. lia.
    + unfold in_region. lia.
Defined.

(** ** Prefixes *)

Lemma last_cons (A : Type) (x d : A) (l : list A) :
  last (x :: l) d = last l x.
Proof.
  destruct l as [| y l]; [reflexivity |].
  cbn [last]. revert y.
  induction l as [| z l IH]; intros y; [reflexivity |].
  cbn [last] in *. apply IH.
Qed.

Section Prefixes.

Context {T : CodecTables}.

Lemma encode_run_app (a b : list Z) :
  forall st,
    encode_run st (a ++ b)
    = encode_run st a
      ++ encode_run (last (map snd (encode_run st a)) st) b.
Proof.
  induction a as [| s rest IH]; intros st.
  - reflexivity.
  - cbn [app encode_run map]. rewrite IH, last_cons. reflexivity.
Qed.

Lemma pack_codes_app (c1 c2 : list Z) :
  Nat.Even (length c1) ->
  pack_codes (c1 ++ c2) = pack_codes c1 ++ pack_codes c2.
Proof.
  induction c1 as [| c | x y rest IH] using list_pair_ind; intros Heven.
  - reflexivity.
  - destruct Heven as [k Hk]. cbn in Hk. lia.
  - cbn [app pack_codes]. rewrite IH; [reflexivity |].
    cbn [length] in Heven. exact (proj1 (Nat.Even_succ_succ _) Heven).
Qed.

Lemma unpack_codes_app (b1 b2 : list Z) :
  unpack_codes (b1 ++ b2) = unpack_codes b1 ++ unpack_codes b2.
Proof.
  induction b1 as [| b rest IH]; cbn [app unpack_codes].
  - reflexivity.
  - now rewrite IH.
Qed.

End Prefixes.

(** X16: in the codec modelled from the interface specification, the
    state is carried through the buffer.  The bytes for [a ++ b], with
    [a] of even length, are the bytes for [a] followed by the bytes for
    [b] encoded from the state [a] left (not from the seeds); and bytes
    appended to a packet do not change the samples decoded from the
    packet. *)
Theorem codec_prefixes {T : CodecTables} :
  (forall a b : list Z,
      Nat.Even (length a) ->
      encode_samples (a ++ b)
      = encode_samples a
        ++ pack_codes
             (encode_codes (last (encode_states seed_state a) seed_state) b))
  /\
  (forall (bytes more : list Z) (n : nat),
      (n <= 2 * length bytes)%nat ->
      decode_samples (bytes ++ more) n = decode_samples bytes n).
Proof.
  split.
  - intros a b Heven. unfold encode_samples, encode_codes, encode_states.
    rewrite encode_run_app, map_app. apply pack_codes_app.
    now rewrite length_map, encode_run_length.
  - intros bytes more n Hn. unfold decode_samples.
    rewrite !firstn_map, !decode_run_firstn. do 2 f_equal.
    rewrite unpack_codes_app, firstn_app, unpack_codes_length.
    replace (n - 2 * length bytes)%nat with 0%nat by lia.
    cbn [firstn]. apply app_nil_r.
Qed.

Lemma codec_prefixes_witness :
  @encode_samples sample_tables ([0; 100] ++ [200; 100])
  = @encode_samples sample_tables [0; 100]
    ++ @pack_codes sample_tables
         (@encode_codes sample_tables
            (last (@encode_states sample_tables
                     (@seed_state sample_tables) [0; 100])
               (@seed_state sample_tables))
            [200; 100]) /\
  @decode_samples sample_tables ([7; 120] ++ [204; 180]) 4
  = @decode_samples sample_tables [7; 120] 4.
Proof.
  split.
  - apply (proj1 (@codec_prefixes sample_tables) [0; 100] [200; 100]).
    exists 1%nat. reflexivity.
  - apply (proj2 (@codec_prefixes sample_tables) [7; 120] [204; 180] 4%nat).
    cbn. lia.
Defined.
